(** * http-explained: the wire parser and the response serializer

    A shallow embedding of [main.go] (both variants of the file in the
    repository): request-line and header parsing over a [bufio.Reader],
    content-length resolution, the bounded body reader with its closer, and
    the rendering of a [Response].

    Go's [string] and [[]byte] are both sequences of 8-bit bytes; they are
    modelled by one type, [bytes := list ascii]. *)

From Stdlib Require Import ZArith Ascii String DecimalString DecimalPos DecimalN DecimalZ.
From stdpp Require Import base option list gmap strings.

Local Open Scope Z_scope.

(** ** Bytes and literals *)

Abbreviation bytes := (list ascii).

(** A string literal as a byte sequence. *)
Definition B (s : string) : bytes := list_ascii_of_string s.

Definition LF : ascii := "010"%char.
Definition CR : ascii := "013"%char.
Definition HT : ascii := "009"%char.
Definition VT : ascii := "011"%char.
Definition FF : ascii := "012"%char.
Definition SP : ascii := " "%char.
Definition COLON : ascii := ":"%char.

(** ** The pieces of Go's library the program calls *)

(** [strings.Cut(s, sep)] for a one-byte separator: the text before the
    first [sep], the text after it, and whether [sep] was found; when it is
    not found the result is [(s, "", false)]. *)
Fixpoint Cut (s : bytes) (sep : ascii) : bytes * bytes * bool :=
  match s with
  | [] => ([], [], false)
  | c :: s' =>
      if decide (c = sep) then ([], s', true)
      else let '(before, after, found) := Cut s' sep in (c :: before, after, found)
  end.

(** [strings.TrimSpace], on its ASCII path: the white space of the
    [asciiSpace] table is tab, line feed, vertical tab, form feed, carriage
    return and space. (A byte of 0x80 or more makes Go decode UTF-8 and use
    [unicode.IsSpace]; that path is outside this model, whose statements
    about trimming are read over ASCII text.) *)
Definition asciiSpace (c : ascii) : bool :=
  bool_decide (c = HT) || bool_decide (c = LF) || bool_decide (c = VT)
  || bool_decide (c = FF) || bool_decide (c = CR) || bool_decide (c = SP).

Fixpoint trimLeft (sp : ascii -> bool) (s : bytes) : bytes :=
  match s with
  | c :: s' => if sp c then trimLeft sp s' else s
  | [] => []
  end.

Definition trimRight (sp : ascii -> bool) (s : bytes) : bytes :=
  rev (trimLeft sp (rev s)).

Definition TrimSpace (s : bytes) : bytes := trimRight asciiSpace (trimLeft asciiSpace s).

(** [textproto.TrimString]: leading and trailing space, tab, line feed and
    carriage return are removed. *)
Definition isASCIISpace (c : ascii) : bool :=
  bool_decide (c = SP) || bool_decide (c = HT) || bool_decide (c = LF) || bool_decide (c = CR).

Definition TrimString (s : bytes) : bytes := trimRight isASCIISpace (trimLeft isASCIISpace s).

(** [strings.Join(elems, sep)]. *)
Fixpoint Join (elems : list bytes) (sep : bytes) : bytes :=
  match elems with
  | [] => []
  | [e] => e
  | e :: rest => e ++ sep ++ Join rest sep
  end.

(** [fmt.Sprintf("%v", n)] for an integer: its decimal digits, with a minus
    sign for a negative number. *)
Definition Sprint_int (n : Z) : bytes := B (NilZero.string_of_int (Z.to_int n)).

(** [bytes.IndexByte]: the position of the first [c] in [s], if any. *)
Fixpoint IndexByte (s : bytes) (c : ascii) : option nat :=
  match s with
  | [] => None
  | x :: s' => if decide (x = c) then Some 0%nat else S <$> IndexByte s' c
  end.

(** ** Errors *)

(** The error values that occur: [io.EOF], and the three errors the parser
    builds itself ([errors.New("invalid request line")],
    [fmt.Errorf("invalid header: %s", kv)] and
    [fmt.Errorf("bad Content-Length: %s", cl)]). Go's [nil] error is [None]
    of [option error]. *)
Inductive error : Type :=
  | EOF
  | ErrInvalidRequestLine
  | ErrInvalidHeader (kv : bytes)
  | ErrBadContentLength (cl : bytes).

(** ** The connection and its buffered reader *)

(** The connection is what its successive [Read] calls deliver: a list of
    segments, then end of stream. A read that offers room for [k] bytes gets
    at most [k] bytes of the first segment; the rest of that segment stays
    for the next read. *)
Definition conn_Read (k : nat) (c : list bytes) : option (bytes * list bytes) :=
  match c with
  | [] => None
  | seg :: rest =>
      Some (take k seg, if decide (drop k seg = []) then rest else drop k seg :: rest)
  end.

(** [bufio.NewReader(conn)]: the unread part of the buffer, [buf], and the
    connection behind it, [rd]. The buffer has room for [defaultBufSize]
    bytes. *)
Record Reader : Type := mkReader { buf : bytes; rd : list bytes }.

Definition defaultBufSize : nat := 4096.

Definition NewReader (c : list bytes) : Reader := {| buf := []; rd := c |}.

(** All bytes still to be read through the reader, in order. *)
Definition contents (b : Reader) : bytes := buf b ++ concat (rd b).

(** [b.Buffered()]. *)
Definition Buffered (b : Reader) : nat := length (buf b).

(** [b.ReadString(delim)]: the bytes up to and including the first [delim].
    The loop searches the buffer; without a [delim] in it, a full buffer is
    moved to the accumulated line, and the buffer is filled by one read of
    the connection into its free room; at end of stream what was read is
    returned with [io.EOF]. [fuel] bounds the number of reads. *)
Fixpoint ReadString_loop (fuel : nat) (delim : ascii) (acc : bytes) (b : Reader)
  : option (bytes * option error * Reader) :=
  match IndexByte (buf b) delim with
  | Some i =>
      Some (acc ++ take (S i) (buf b), None, {| buf := drop (S i) (buf b); rd := rd b |})
  | None =>
      match fuel with
      | O => None
      | S fuel' =>
          let '(acc, kept) :=
            if decide (defaultBufSize ≤ length (buf b))%nat
            then (acc ++ buf b, []) else (acc, buf b) in
          match conn_Read (defaultBufSize - length kept) (rd b) with
          | None => Some (acc ++ kept, Some EOF, {| buf := []; rd := [] |})
          | Some (chunk, rd') =>
              ReadString_loop fuel' delim acc {| buf := kept ++ chunk; rd := rd' |}
          end
      end
  end.

(** Every read of the connection takes a byte or a whole segment from it, so
    this many reads reach the delimiter or the end of the stream. *)
Definition pending (c : list bytes) : nat := (length (concat c) + length c)%nat.

Definition ReadString (b : Reader) (delim : ascii) : option (bytes * option error * Reader) :=
  ReadString_loop (S (pending (rd b))) delim [] b.

(** ** The wire parser *)

(** [parseRequestLine]: one line is read; it is cut at the first space and
    the rest is cut at the next one. *)
Definition parseRequestLine (r : Reader)
  : option (bytes * bytes * bytes * option error * Reader) :=
  '(line, err, r) ← ReadString r LF;
  match err with
  | Some e => Some ([], [], [], Some e, r)
  | None =>
      let '(method, rest, ok1) := Cut line SP in
      let '(requestURI, proto, ok2) := Cut rest SP in
      if negb ok1 || negb ok2
      then Some ([], [], [], Some ErrInvalidRequestLine, r)
      else Some (method, requestURI, proto, None, r)
  end.

(** [http.Header] is [map[string][]string]. *)
Abbreviation Header := (gmap bytes (list bytes)).

(** [parseMIMEHeader]: lines are read until one that is empty once trimmed.
    Each other line is cut at its first colon; the trimmed name is the key,
    and the trimmed value is appended to what the map holds under that key.
    Each turn of the loop reads at least one byte, so [fuel] bounds the
    number of lines. *)
Fixpoint parseMIMEHeader_loop (fuel : nat) (headers : Header) (r : Reader)
  : option (Header * option error * Reader) :=
  match fuel with
  | O => None
  | S fuel' =>
      '(kv, err, r) ← ReadString r LF;
      match err with
      | Some e => Some (headers, Some e, r)
      | None =>
          let kv := TrimSpace kv in
          if decide (length kv = 0%nat) then Some (headers, None, r)
          else
            let '(k, v, ok) := Cut kv COLON in
            if negb ok then Some (headers, Some (ErrInvalidHeader kv), r)
            else
              let k := TrimSpace k in
              let v := TrimSpace v in
              parseMIMEHeader_loop fuel' (<[k := (headers !!! k) ++ [v]]> headers) r
      end
  end.

Definition parseMIMEHeader (r : Reader) : option (Header * option error * Reader) :=
  parseMIMEHeader_loop (S (length (contents r))) ∅ r.

(** [h.Get(key)] for a key that is already in canonical form, as
    ["Content-Length"] is: the first value stored under [key], or the empty
    string. *)
Definition Header_Get (h : Header) (key : bytes) : bytes :=
  match h !!! key with
  | v :: _ => v
  | [] => []
  end.

(** [strconv.ParseUint(s, base, bitSize)] for a base from 2 to 36 and a bit
    size from 1 to 64, on unsigned 64-bit arithmetic. *)
Inductive NumError : Type := ErrSyntax | ErrRange.

Definition maxUint64 : Z := 2 ^ 64 - 1.

Definition digit_value (c : Z) : option Z :=
  let lower := Z.lor c 32 in
  if (48 <=? c) && (c <=? 57) then Some (c - 48)
  else if (97 <=? lower) && (lower <=? 122) then Some (lower - 97 + 10)
  else None.

Fixpoint ParseUint_loop (s : bytes) (base cutoff maxVal n : Z) : Z * option NumError :=
  match s with
  | [] => (n, None)
  | c :: s' =>
      match digit_value (Z.of_N (N_of_ascii c)) with
      | None => (0, Some ErrSyntax)
      | Some d =>
          if base <=? d then (0, Some ErrSyntax)
          else if cutoff <=? n then (maxVal, Some ErrRange)
          else
            let n := (n * base) mod 2 ^ 64 in
            let n1 := (n + d) mod 2 ^ 64 in
            if (n1 <? n) || (maxVal <? n1) then (maxVal, Some ErrRange)
            else ParseUint_loop s' base cutoff maxVal n1
      end
  end.

Definition ParseUint (s : bytes) (base bitSize : Z) : Z * option NumError :=
  match s with
  | [] => (0, Some ErrSyntax)
  | _ => ParseUint_loop s base (maxUint64 / base + 1) (2 ^ bitSize - 1) 0
  end.

(** The conversion [int64(n)] of an unsigned 64-bit number. *)
Definition int64_of_uint64 (n : Z) : Z := if n <? 2 ^ 63 then n else n - 2 ^ 64.

(** The value [parseContentLength] works on: the header under its canonical
    name, or else the first value under the lowercase spelling. *)
Definition contentLengthField (h : Header) : bytes :=
  let cl := Header_Get h (B "Content-Length") in
  if decide (length cl = 0%nat) then
    match h !!! B "content-length" with
    | v :: _ => v
    | [] => cl
    end
  else cl.

Definition parseContentLength (h : Header) : Z * option error :=
  let cl := contentLengthField h in
  let cl := TrimString cl in
  if decide (cl = []) then (-1, None)
  else
    match ParseUint cl 10 63 with
    | (_, Some _) => (0, Some (ErrBadContentLength cl))
    | (n, None) => (int64_of_uint64 n, None)
    end.

(** ** The body stream *)

(** [b.Read(p)] of the buffered reader for a [p] of [k] bytes: buffered
    bytes are handed out first; with an empty buffer the connection is read
    once, straight into [p] when [p] is at least as large as the buffer and
    into the buffer otherwise. *)
Definition Reader_Read (k : nat) (b : Reader) : bytes * option error * Reader :=
  if decide (k = 0%nat) then ([], None, b)
  else
    match buf b with
    | [] =>
        if decide (defaultBufSize ≤ k)%nat then
          match conn_Read k (rd b) with
          | None => ([], Some EOF, b)
          | Some (chunk, rd') => (chunk, None, {| buf := []; rd := rd' |})
          end
        else
          match conn_Read defaultBufSize (rd b) with
          | None => ([], Some EOF, b)
          | Some (chunk, rd') => (take k chunk, None, {| buf := drop k chunk; rd := rd' |})
          end
    | _ => (take k (buf b), None, {| buf := drop k (buf b); rd := rd b |})
    end.

(** [io.LimitedReader]: [R] is the reader underneath, [N] the number of
    bytes that may still be read. *)
Record LimitedReader : Type := mkLimitedReader { R : Reader; N : Z }.

Definition LimitReader (r : Reader) (n : Z) : LimitedReader := {| R := r; N := n |}.

Definition LimitedReader_Read (k : nat) (l : LimitedReader)
  : bytes * option error * LimitedReader :=
  if N l <=? 0 then ([], Some EOF, l)
  else
    let k := if N l <? Z.of_nat k then Z.to_nat (N l) else k in
    let '(p, err, r) := Reader_Read k (R l) in
    (p, err, {| R := r; N := N l - Z.of_nat (length p) |}).

(** The two closers the program pairs with the limited reader. Both hold the
    very [*bufio.Reader] that the limited reader reads from, so the body is
    one limited reader and the kind of its closer. *)
Inductive Closer : Type := naiveCloser | NopCloser.

Record Body : Type := mkBody { body_reader : LimitedReader; body_closer : Closer }.

(** [makeBodyReadCloser], of the variant of the program that has it. *)
Definition makeBodyReadCloser (r : Reader) (contentLength : Z) : Body :=
  {| body_reader := LimitReader r contentLength; body_closer := naiveCloser |}.


Definition Body_Read (k : nat) (b : Body) : bytes * option error * Body :=
  let '(p, err, l) := LimitedReader_Read k (body_reader b) in
  (p, err, {| body_reader := l; body_closer := body_closer b |}).

(** [io.Copy(io.Discard, r)]: everything up to the end of the stream is read
    and dropped; the number of bytes copied is returned, and reaching the
    end of the stream is not an error. *)
Definition Copy_Discard (r : Reader) : Z * option error * Reader :=
  (Z.of_nat (length (contents r)), None, {| buf := []; rd := [] |}).

(** [naiveCloser.Close]. *)
Definition naiveCloser_Close (r : Reader) : option error * Reader :=
  if decide (0 < Buffered r)%nat then
    let '(_, err, r) := Copy_Discard r in (err, r)
  else (None, r).

Definition Body_Close (b : Body) : option error * Body :=
  match body_closer b with
  | naiveCloser =>
      let '(err, r) := naiveCloser_Close (R (body_reader b)) in
      (err, {| body_reader := {| R := r; N := N (body_reader b) |};
               body_closer := naiveCloser |})
  | NopCloser => (None, b)
  end.

(** [ioutil.ReadAll]: reads into the free room of a growing buffer until an
    error; [io.EOF] ends the loop without being reported. [free n] is the
    free room when [n] bytes have been collected, and [fuel] bounds the
    number of reads. *)
Fixpoint ReadAll (free : nat -> nat) (fuel : nat) (b : Body) (got : bytes)
  : option (bytes * option error * Body) :=
  match fuel with
  | O => None
  | S fuel' =>
      let '(p, err, b) := Body_Read (free (length got)) b in
      let got := got ++ p in
      match err with
      | Some EOF => Some (got, None, b)
      | Some e => Some (got, Some e, b)
      | None => ReadAll free fuel' b got
      end
  end.

(** ** The response *)

(** A [Response]; the header map of a fresh one is [nil], here [None]. *)
Record Response : Type := mkResponse {
  status : Z;
  header : option Header;
  data : bytes
}.

Definition Response_zero : Response := {| status := 0; header := None; data := [] |}.

(** The outcome of a method that may panic. *)
Inductive outcome (A : Type) : Type :=
  | Returns (a : A)
  | Panics (msg : bytes).
Arguments Returns {A} a.
Arguments Panics {A} msg.

Definition WriteStatus (r : Response) (code : Z) : outcome Response :=
  if (code <? 100) || (999 <? code)
  then Panics (B "invalid WriteHeader code " ++ Sprint_int code)
  else Returns {| status := code; header := header r; data := data r |}.

Definition WriteData (r : Response) (d : bytes) : Response :=
  {| status := status r; header := header r; data := data r ++ d |}.

Definition WriteHeader (r : Response) (field value : bytes) : Response :=
  let h := match header r with None => ∅ | Some h => h end in
  {| status := status r;
     header := Some (<[field := (h !!! field) ++ [value]]> h);
     data := data r |}.

(** Reading a map that may be [nil]. *)
Definition header_map (r : Response) : Header := default ∅ (header r).

(** Go leaves the order in which [range] visits the keys of a map open. The
    order is an argument of the model: [ks] is a visiting order of [h] when
    it lists every key of [h] once. *)
Definition range_order (h : Header) (ks : list bytes) : Prop :=
  ks ≡ₚ (map_to_list h).*1.

(** The [headers] slice of [respond] before the content length is added:
    one line for every value of every key, in visiting order. *)
Definition header_lines (ks : list bytes) (h : Header) : list bytes :=
  flat_map (λ k, (λ vv, k ++ B ": " ++ vv) <$> (h !!! k)) ks.

Definition statusLine (r : Response) : bytes :=
  B "HTTP/1.1 " ++ Sprint_int (status r) ++ B " OK".

Definition contentLengthLine (r : Response) : bytes :=
  B "Content-Length: " ++ Sprint_int (Z.of_nat (length (data r))).

(** [respond], for the visiting order [ks] of the header map. *)
Definition respond (ks : list bytes) (r : Response) : bytes :=
  let headers := header_lines ks (header_map r) ++ [contentLengthLine r] in
  (statusLine r ++ [LF] ++ Join headers [LF] ++ [LF] ++ [LF]) ++ data r.

(** ** Header blocks, as the wire format writes them *)



(** A name holds no colon and no line feed, a value no line feed, and
    neither starts or ends with white space. *)
Definition header_ok (nv : bytes * bytes) : Prop :=
  (COLON ∉ nv.1) ∧ (LF ∉ nv.1) ∧ (LF ∉ nv.2)
  ∧ TrimSpace nv.1 = nv.1 ∧ TrimSpace nv.2 = nv.2.

(** The values written under exactly the name [k], in the order of the
    lines. *)
Definition values_of (k : bytes) (hdrs : list (bytes * bytes)) : list bytes :=
  (filter (λ nv, nv.1 = k) hdrs).*2.

#[global] Instance header_ok_dec (nv : bytes * bytes) : Decision (header_ok nv).
Proof. unfold header_ok. apply _. Defined.

(** ** Decimal numerals *)

(** A text parses as a non-negative 64-bit integer when it is a non-empty
    run of decimal digits whose value fits a signed 64-bit integer. *)
Definition byte_value (c : ascii) : Z := Z.of_N (N_of_ascii c).

Definition isDigit (c : ascii) : bool := (48 <=? byte_value c) && (byte_value c <=? 57).

Definition decimal_from (s : bytes) (n : Z) : Z :=
  fold_left (λ a c, 10 * a + (byte_value c - 48)) s n.

Definition decimal_int64 (s : bytes) : option Z :=
  if bool_decide (s ≠ []) && forallb isDigit s && (decimal_from s 0 <? 2 ^ 63)
  then Some (decimal_from s 0) else None.

(** The cutoff and the largest value that [ParseUint] works with for base 10
    and 63 bits. *)
Definition cutoff10 : Z := maxUint64 / 10 + 1.
Definition maxInt63 : Z := 2 ^ 63 - 1.

(** ** The body that the handler gets *)

(** The part of [handleConn] that leads to the body: the request line, the
    header block and the content length are parsed in turn, and the body is
    built over what is left of the reader; [mk] is [makeBodyReadCloser] in
    one variant of the program and [makeBodyNopCloser] in the other. A parse
    error ends [handleConn] before there is a body. *)
Definition handleConn_body (mk : Reader → Z → Body) (c : list bytes) : option (error + Body) :=
  '(_, _, _, err, r) ← parseRequestLine (NewReader c);
  match err with
  | Some e => Some (inl e)
  | None =>
      '(headers, err, r) ← parseMIMEHeader r;
      match err with
      | Some e => Some (inl e)
      | None =>
          match parseContentLength headers with
          | (_, Some e) => Some (inl e)
          | (length, None) => Some (inr (mk r length))
          end
      end
  end.



(** ** The response of the handler *)

(** The response that [handlerFn] builds: status 200, one header and the
    body [hello world]. *)
Definition hello_response : Response :=
  {| status := 200;
     header := Some {[ B "Content-Type" := [B "text/plain"] ]};
     data := B "hello world" |}.

(** One line for every value that the header map holds, key by key. *)
Definition stored_lines (h : Header) : list bytes :=
  flat_map (λ kv, (λ vv, kv.1 ++ B ": " ++ vv) <$> kv.2) (map_to_list h).

(** ** Header lines as they come off the wire *)


Definition raw_ok (ab : bytes * bytes) : Prop :=
  (COLON ∉ ab.1) ∧ (LF ∉ ab.1) ∧ (LF ∉ ab.2).

#[global] Instance raw_ok_dec (ab : bytes * bytes) : Decision (raw_ok ab).
Proof. unfold raw_ok. apply _. Defined.


(** ** Sequences of writes *)

(** The calls [WriteHeader(k, v)] for the pairs of [kvs], one after the
    other. *)
Definition WriteHeaders (r : Response) (kvs : list (bytes * bytes)) : Response :=
  foldl (λ r kv, WriteHeader r kv.1 kv.2) r kvs.

(** The header line of a name and a value, without its line feed. *)
Definition pair_line (kv : bytes * bytes) : bytes := kv.1 ++ B ": " ++ kv.2.


(** ** The handler and the connection *)








(** ** Examples *)

Example parseRequestLine_ex :
  parseRequestLine (NewReader [B "GET /index.html HTT"; B "P/1.0" ++ [LF] ++ B "Host: x"])
  = Some (B "GET", B "/index.html", B "HTTP/1.0" ++ [LF], None,
          {| buf := B "Host: x"; rd := [] |}).
Proof. vm_compute. reflexivity. Qed.

Example parseRequestLine_no_space :
  parseRequestLine (NewReader [B "GET /index.html" ++ [LF]])
  = Some ([], [], [], Some ErrInvalidRequestLine, {| buf := []; rd := [] |}).
Proof. by vm_compute. Qed.

Example parseRequestLine_no_line :
  parseRequestLine (NewReader [B "GET / HTTP/1.0"])
  = Some ([], [], [], Some EOF, {| buf := []; rd := [] |}).
Proof. by vm_compute. Qed.

Example parseMIMEHeader_no_colon :
  parseMIMEHeader (NewReader [B "Host: x" ++ [CR; LF] ++ B " no colon here " ++ [CR; LF; CR; LF]])
  = Some ({[ B "Host" := [B "x"] ]}, Some (ErrInvalidHeader (B "no colon here")),
          {| buf := [CR; LF]; rd := [] |}).
Proof. by vm_compute. Qed.

Example handleConn_body_ex :
  handleConn_body makeBodyReadCloser
    [B "POST /submit HTTP/1.1" ++ [LF] ++ B "content-length: 5" ++ [LF; LF]; B "hello"]
  = Some (inr {| body_reader := {| R := {| buf := []; rd := [B "hello"] |}; N := 5 |};
                 body_closer := naiveCloser |}).
Proof. by vm_compute. Qed.

(** The lowercase spelling is used when the canonical name is missing and
    also when its first value is empty. *)
Example parseContentLength_fallback :
  parseContentLength {[ B "content-length" := [B "7"; B "8"] ]} = (7, None)
  ∧ parseContentLength {[ B "Content-Length" := [B ""]; B "content-length" := [B "7"] ]}
    = (7, None)
  ∧ parseContentLength {[ B "Content-Length" := [B " "]; B "content-length" := [B "7"] ]}
    = (-1, None)
  ∧ parseContentLength {[ B "CONTENT-LENGTH" := [B "7"] ]} = (-1, None).
Proof. by vm_compute. Qed.

(** ** Lists of bytes: first occurrences *)






(** ** The buffered reader *)

Lemma conn_Read_Some (k : nat) (c c' : list bytes) (chunk : bytes) :
  conn_Read k c = Some (chunk, c') →
  concat c = chunk ++ concat c' ∧ (length chunk ≤ k)%nat ∧
  (length c' ≤ length c)%nat ∧
  ((0 < k)%nat → (pending c' < pending c)%nat) ∧
  ((0 < k)%nat → chunk = [] → (length c' < length c)%nat).
Proof.
  destruct c as [|seg rest]; simpl; [done|].
  intros [= <- <-]. unfold pending.
  pose proof (length_take seg k) as Ht.
  pose proof (length_drop seg k) as Hdr.
  case_decide as Hd; simpl.
  - rewrite <- (take_drop k seg) at 1. rewrite Hd, app_nil_r.
    rewrite Hd in Hdr. simpl in Hdr.
    rewrite !length_app. repeat split; try lia.
  - rewrite app_assoc, take_drop. rewrite !length_app.
    assert (length (drop k seg) ≠ 0%nat) by (by destruct (drop k seg)).
    repeat split; try lia.
    intros Hk Hnil. rewrite Hnil in Ht. simpl in Ht. lia.
Qed.

Lemma conn_Read_None (k : nat) (c : list bytes) : conn_Read k c = None → c = [].
Proof. by destruct c. Qed.



(** ** The request line *)


(** ** Trimming *)

Section trimming.
Variable sp : ascii → bool.



Lemma trimLeft_cons (c : ascii) (s : bytes) :
  sp c = false → trimLeft sp (c :: s) = c :: s.
Proof. intros H. simpl. by rewrite H. Qed.


Lemma trimRight_snoc (s : bytes) (c : ascii) :
  sp c = false → trimRight sp (s ++ [c]) = s ++ [c].
Proof.
  intros H. unfold trimRight. rewrite rev_unit, trimLeft_cons by done.
  simpl. by rewrite rev_involutive.
Qed.


Lemma trimRight_nil : trimRight sp [] = [].
Proof. done. Qed.

End trimming.


(** ** The header block *)

Lemma values_of_cons (k n v : bytes) (hdrs : list (bytes * bytes)) :
  values_of k ((n, v) :: hdrs) =
  if decide (n = k) then v :: values_of k hdrs else values_of k hdrs.
Proof.
  unfold values_of. rewrite filter_cons. simpl. by case_decide.
Qed.






(** ** The parser always returns *)






(** ** The body stream *)

Lemma Reader_Read_spec (k : nat) (b b' : Reader) (p : bytes) (err : option error) :
  (0 < k)%nat → Reader_Read k b = (p, err, b') →
  contents b = p ++ contents b' ∧ (length p ≤ k)%nat ∧
  (length (rd b') ≤ length (rd b))%nat ∧
  ((err = None ∧ (p = [] → (length (rd b') < length (rd b))%nat))
   ∨ (err = Some EOF ∧ p = [] ∧ b' = b ∧ contents b = [])).
Proof.
  intros Hk. unfold Reader_Read, contents. rewrite decide_False by lia.
  destruct (buf b) as [|x l] eqn:Hbuf.
  - case_decide as Hbig.
    + destruct (conn_Read k (rd b)) as [[chunk rd']|] eqn:Hcr.
      * intros [= <- <- <-]. simpl.
        apply conn_Read_Some in Hcr as (Hcat & Hlen & Hle & _ & Hlt).
        split_and!; [done|done|done|]. left. split; [done|]. by apply Hlt.
      * intros [= <- <- <-]. apply conn_Read_None in Hcr.
        rewrite Hbuf, Hcr. simpl. split_and!; [done|lia|done|]. right.
        by split_and!.
    + destruct (conn_Read defaultBufSize (rd b)) as [[chunk rd']|] eqn:Hcr.
      * intros [= <- <- <-]. simpl.
        apply conn_Read_Some in Hcr as (Hcat & Hlen & Hle & _ & Hlt).
        rewrite Hcat, app_assoc, take_drop. rewrite length_take.
        split_and!; [done|lia|done|]. left. split; [done|].
        intros Ht. apply Hlt; [unfold defaultBufSize; lia|].
        destruct chunk; [done|]. destruct k; [lia|done].
      * intros [= <- <- <-]. apply conn_Read_None in Hcr.
        rewrite Hbuf, Hcr. simpl. split_and!; [done|lia|done|]. right.
        by split_and!.
  - intros [= <- <- <-]. simpl rd. simpl buf.
    rewrite app_assoc, take_drop, length_take.
    split_and!; [done|lia|done|]. left. split; [done|].
    destruct k; [lia|done].
Qed.

Section ReadAll.
Variable free : nat → nat.
Hypothesis free_pos : ∀ m, (0 < free m)%nat.

Lemma ReadAll_limited (fuel : nat) (b : Body) (got : bytes) :
  0 ≤ N (body_reader b) ≤ Z.of_nat (length (contents (R (body_reader b)))) →
  (Z.to_nat (N (body_reader b)) + length (rd (R (body_reader b))) < fuel)%nat →
  ∃ b',
    ReadAll free fuel b got
    = Some (got ++ take (Z.to_nat (N (body_reader b))) (contents (R (body_reader b))),
            None, b')
    ∧ contents (R (body_reader b'))
      = drop (Z.to_nat (N (body_reader b))) (contents (R (body_reader b)))
    ∧ N (body_reader b') = 0
    ∧ body_closer b' = body_closer b.
Proof.
  revert b got. induction fuel as [|fuel IH]; intros [[r n] c] got Hn Hfuel; [lia|].
  simpl in *. unfold Body_Read, LimitedReader_Read. simpl.
  destruct (Z.leb_spec n 0) as [Hz|Hpos].
  - assert (n = 0) as -> by lia. simpl. rewrite take_0, drop_0, app_nil_r.
    eexists. split; [reflexivity|]. done.
  - set (k := if n <? Z.of_nat (free (length got)) then Z.to_nat n else free (length got)).
    assert (0 < k ∧ k ≤ Z.to_nat n)%nat as [Hk Hkn].
    { unfold k. pose proof (free_pos (length got)). case_match; lia. }
    clearbody k.
    destruct (Reader_Read k r) as [[p err] r'] eqn:Hread.
    apply Reader_Read_spec in Hread as (Hc & Hlen & Hle & Herr); [|done].
    destruct Herr as [[-> Hprog]|(_ & _ & _ & Hnil)].
    2:{ rewrite Hnil in Hn. simpl in Hn. lia. }
    destruct (IH {| body_reader := {| R := r'; N := n - Z.of_nat (length p) |};
                    body_closer := c |} (got ++ p))
      as (b' & Hb' & Hcb' & HN & Hcl).
    { simpl. rewrite Hc, length_app in Hn. lia. }
    { simpl. destruct p; simpl in *; [specialize (Hprog eq_refl)|]; lia. }
    simpl in *. exists b'. rewrite Hb'. split; [|split; [|done]].
    + do 3 f_equal. rewrite <- app_assoc. f_equal. rewrite Hc.
      rewrite take_app. rewrite (take_ge p) by lia. do 2 f_equal. lia.
    + rewrite Hcb', Hc. rewrite drop_app. rewrite (drop_ge p) by lia. simpl.
      f_equal. lia.
Qed.
End ReadAll.

(** C3: with a content length [n] that is not negative and a stream that
    still holds [n] bytes or more, reading the body to its end returns the
    first [n] bytes of the stream and no error, leaves the bytes after them
    on the stream, and every later read reports the end of the stream. This
    holds for both closers, for every segmentation of the stream and for
    every size of the reads. *)
Theorem body_yields_exactly_content_length
    (free : nat → nat) (fuel : nat) (r : Reader) (n : Z) (c : Closer) :
  (∀ m, (0 < free m)%nat) →
  0 ≤ n ≤ Z.of_nat (length (contents r)) →
  (Z.to_nat n + length (rd r) < fuel)%nat →
  ∃ b',
    ReadAll free fuel {| body_reader := LimitReader r n; body_closer := c |} []
    = Some (take (Z.to_nat n) (contents r), None, b')
    ∧ contents (R (body_reader b')) = drop (Z.to_nat n) (contents r)
    ∧ ∀ k, Body_Read k b' = ([], Some EOF, b').
Proof.
  intros Hfree Hn Hfuel.
  destruct (ReadAll_limited free Hfree fuel
              {| body_reader := LimitReader r n; body_closer := c |} [])
    as (b' & Hb' & Hc & HN & _); [done..|].
  exists b'. split; [done|]. split; [done|].
  intros k. unfold Body_Read, LimitedReader_Read. rewrite HN. simpl.
  by destruct b' as [[??]?].
Qed.

Lemma body_yields_exactly_content_length_witness :
  ∃ b',
    ReadAll (λ _, 2%nat) 9
      (makeBodyReadCloser {| buf := B "hel"; rd := [B "l"; B "oEXTRA"; B "more"] |} 5) []
    = Some (B "hello", None, b')
    ∧ contents (R (body_reader b')) = B "EXTRAmore"
    ∧ ∀ k, Body_Read k b' = ([], Some EOF, b').
Proof.
  apply (body_yields_exactly_content_length (λ _, 2%nat) 9
           {| buf := B "hel"; rd := [B "l"; B "oEXTRA"; B "more"] |} 5 naiveCloser).
  - intros _. lia.
  - vm_compute. split; discriminate.
  - simpl. lia.
Defined.

(** ** The content length *)




(** ** The content length as a decimal numeral *)

Lemma digit_value_digit (c : ascii) :
  isDigit c = true →
  digit_value (Z.of_N (N_of_ascii c)) = Some (byte_value c - 48)
  ∧ 0 ≤ byte_value c - 48 ≤ 9.
Proof.
  unfold isDigit, digit_value, byte_value. intros H. rewrite H.
  apply andb_true_iff in H as [H1%Z.leb_le H2%Z.leb_le]. split; [done|lia].
Qed.

Lemma digit_value_other (c : ascii) :
  isDigit c = false →
  digit_value (Z.of_N (N_of_ascii c)) = None
  ∨ ∃ d, digit_value (Z.of_N (N_of_ascii c)) = Some d ∧ 10 ≤ d.
Proof.
  unfold isDigit, digit_value, byte_value. intros H. rewrite H.
  case_match eqn:E; [|by left]. right. eexists. split; [done|].
  apply andb_true_iff in E as [E1%Z.leb_le E2%Z.leb_le]. lia.
Qed.

Lemma decimal_from_ge (s : bytes) (n : Z) :
  forallb isDigit s = true → 0 ≤ n → n ≤ decimal_from s n.
Proof.
  revert n. induction s as [|c s IH]; intros n Hd Hn; simpl in *; [lia|].
  apply andb_true_iff in Hd as [Hc Hs]. apply digit_value_digit in Hc as [_ Hc].
  etrans; [|apply IH]; [lia|done|lia].
Qed.

Lemma ParseUint_loop_digits (s : bytes) (n : Z) :
  forallb isDigit s = true → 0 ≤ n ≤ maxInt63 →
  ParseUint_loop s 10 cutoff10 maxInt63 n =
  if decimal_from s n <=? maxInt63 then (decimal_from s n, None)
  else (maxInt63, Some ErrRange).
Proof.
  revert n. induction s as [|c s IH]; intros n Hd Hn; simpl.
  - destruct (Z.leb_spec n maxInt63); [done|lia].
  - simpl in Hd. apply andb_true_iff in Hd as [Hc Hs].
    apply digit_value_digit in Hc as [-> Hc].
    set (d := byte_value c - 48) in *.
    pose proof (decimal_from_ge s (10 * n + d) Hs) as Hge.
    assert (cutoff10 = 1844674407370955162) as Hcut by reflexivity.
    assert (maxInt63 = 9223372036854775807) as Hmax by reflexivity.
    assert (2 ^ 64 = 18446744073709551616) as H64 by reflexivity.
    destruct (Z.leb_spec 10 d); [lia|].
    destruct (Z.leb_spec cutoff10 n).
    { destruct (Z.leb_spec (decimal_from s (10 * n + d)) maxInt63); [lia|done]. }
    rewrite (Z.mod_small (n * 10)) by lia.
    destruct (Z.lt_ge_cases (n * 10 + d) (2 ^ 64)) as [Hsmall|Hwrap].
    + rewrite (Z.mod_small (n * 10 + d)) by lia.
      destruct (Z.ltb_spec (n * 10 + d) (n * 10)); [lia|]. simpl.
      destruct (Z.ltb_spec maxInt63 (n * 10 + d)).
      * destruct (Z.leb_spec (decimal_from s (10 * n + d)) maxInt63); [lia|done].
      * rewrite IH by (done || lia). by replace (n * 10 + d) with (10 * n + d) by lia.
    + assert ((n * 10 + d) mod 2 ^ 64 = n * 10 + d - 2 ^ 64) as ->.
      { symmetry. apply (Z.mod_unique_pos _ _ 1); lia. }
      destruct (Z.ltb_spec (n * 10 + d - 2 ^ 64) (n * 10)); [|lia]. simpl.
      destruct (Z.leb_spec (decimal_from s (10 * n + d)) maxInt63); [lia|done].
Qed.

Lemma ParseUint_loop_other (s : bytes) (n : Z) :
  forallb isDigit s = false →
  ∃ v e, ParseUint_loop s 10 cutoff10 maxInt63 n = (v, Some e).
Proof.
  revert n. induction s as [|c s IH]; intros n Hd; simpl in *; [done|].
  destruct (isDigit c) eqn:Hc; simpl in Hd.
  - apply digit_value_digit in Hc as [-> Hc].
    repeat case_match; eauto.
  - apply digit_value_other in Hc as [->|(d & -> & Hd10)]; [eauto|].
    destruct (Z.leb_spec 10 d); [eauto|lia].
Qed.

Lemma ParseUint_decimal (s : bytes) :
  s ≠ [] →
  match decimal_int64 s with
  | Some n => ParseUint s 10 63 = (n, None) ∧ 0 ≤ n < 2 ^ 63
  | None => ∃ v e, ParseUint s 10 63 = (v, Some e)
  end.
Proof.
  intros Hne. unfold decimal_int64. rewrite bool_decide_eq_true_2 by done. simpl.
  assert (ParseUint s 10 63 = ParseUint_loop s 10 cutoff10 maxInt63 0) as ->
    by (by destruct s).
  assert (maxInt63 = 9223372036854775807) as Hmax by reflexivity.
  assert (2 ^ 63 = 9223372036854775808) as H63 by reflexivity.
  destruct (forallb isDigit s) eqn:Hd; simpl.
  - rewrite ParseUint_loop_digits by (done || lia).
    pose proof (decimal_from_ge s 0 Hd) as Hge.
    destruct (Z.ltb_spec (decimal_from s 0) (2 ^ 63)).
    + destruct (Z.leb_spec (decimal_from s 0) maxInt63); [|lia]. split; [done|lia].
    + destruct (Z.leb_spec (decimal_from s 0) maxInt63); [lia|]. eauto.
  - by apply ParseUint_loop_other.
Qed.

(** C8: a content length that is not empty once trimmed is resolved to the
    number it spells when it is a run of decimal digits with a value below
    2^63, and fails with the error [bad Content-Length] otherwise. *)
Theorem parseContentLength_decimal (h : Header) :
  TrimString (contentLengthField h) ≠ [] →
  parseContentLength h =
  match decimal_int64 (TrimString (contentLengthField h)) with
  | Some n => (n, None)
  | None => (0, Some (ErrBadContentLength (TrimString (contentLengthField h))))
  end.
Proof.
  intros Hne. unfold parseContentLength. rewrite decide_False by done.
  pose proof (ParseUint_decimal _ Hne) as Hp.
  destruct (decimal_int64 (TrimString (contentLengthField h))) as [n|].
  - destruct Hp as [-> Hn]. unfold int64_of_uint64.
    destruct (Z.ltb_spec n (2 ^ 63)); [done|lia].
  - by destruct Hp as (v & e & ->).
Qed.

Lemma parseContentLength_decimal_witness :
  parseContentLength {[ B "Content-Length" := [B "abc"] ]}
  = (0, Some (ErrBadContentLength (B "abc")))
  ∧ parseContentLength {[ B "content-length" := [B " 9223372036854775807 "] ]}
    = (9223372036854775807, None)
  ∧ parseContentLength {[ B "Content-Length" := [B "9223372036854775808"] ]}
    = (0, Some (ErrBadContentLength (B "9223372036854775808"))).
Proof.
  split; [|split].
  - etrans; [apply (parseContentLength_decimal {[ B "Content-Length" := [B "abc"] ]})|]; by vm_compute.
  - etrans; [apply (parseContentLength_decimal {[ B "content-length" := [B " 9223372036854775807 "] ]})|]; by vm_compute.
  - etrans; [apply (parseContentLength_decimal {[ B "Content-Length" := [B "9223372036854775808"] ]})|]; by vm_compute.
Defined.

(** ** The response *)

(** C9: a status code below 100 or above 999 makes [WriteStatus] panic, and
    a code from 100 to 999 is stored as the status of the response. *)
Theorem WriteStatus_validates (r : Response) (code : Z) :
  (code < 100 ∨ 999 < code →
   WriteStatus r code = Panics (B "invalid WriteHeader code " ++ Sprint_int code))
  ∧ (100 ≤ code ≤ 999 →
     WriteStatus r code = Returns {| status := code; header := header r; data := data r |}).
Proof.
  unfold WriteStatus. split; intros H.
  - destruct (Z.ltb_spec code 100); [done|].
    destruct (Z.ltb_spec 999 code); [done|lia].
  - destruct (Z.ltb_spec code 100); [lia|].
    destruct (Z.ltb_spec 999 code); [lia|done].
Qed.

Lemma WriteStatus_validates_witness :
  WriteStatus Response_zero 42 = Panics (B "invalid WriteHeader code 42")
  ∧ WriteStatus Response_zero 1000 = Panics (B "invalid WriteHeader code 1000")
  ∧ WriteStatus Response_zero 200 = Returns {| status := 200; header := None; data := [] |}.
Proof.
  split; [|split].
  - apply (proj1 (WriteStatus_validates Response_zero 42)). left. lia.
  - apply (proj1 (WriteStatus_validates Response_zero 1000)). right. lia.
  - apply (proj2 (WriteStatus_validates Response_zero 200)). lia.
Defined.

(** The three writes of [handlerFn] on a fresh response give
    [hello_response]. *)
Lemma handlerFn_writes :
  ∃ r, WriteStatus Response_zero 200 = Returns r
       ∧ WriteData (WriteHeader r (B "Content-Type") (B "text/plain")) (B "hello world")
         = hello_response.
Proof.
  eexists. split; [reflexivity|]. unfold WriteData, WriteHeader, hello_response. simpl.
  by rewrite lookup_total_empty, insert_empty.
Qed.

(** C2: the response with status 200, the one header
    [Content-Type: text/plain] and the body [hello world] is rendered, in
    whatever order the header map is visited, as the status line with the
    reason [OK], the header line, the content length 11, an empty line and
    the body, each line closed by one line feed. *)
Theorem respond_hello_world (ks : list bytes) :
  range_order (header_map hello_response) ks →
  respond ks hello_response
  = B "HTTP/1.1 200 OK" ++ [LF] ++ B "Content-Type: text/plain" ++ [LF]
    ++ B "Content-Length: 11" ++ [LF] ++ [LF] ++ B "hello world".
Proof.
  unfold range_order.
  change (header_map hello_response)
    with ({[ B "Content-Type" := [B "text/plain"] ]} : Header).
  rewrite map_to_list_singleton.
  intros ->%Permutation_singleton_r. by vm_compute.
Qed.

Lemma respond_hello_world_witness :
  respond [B "Content-Type"] hello_response
  = B "HTTP/1.1 200 OK" ++ [LF] ++ B "Content-Type: text/plain" ++ [LF]
    ++ B "Content-Length: 11" ++ [LF] ++ [LF] ++ B "hello world".
Proof.
  apply respond_hello_world. unfold range_order.
  change (header_map hello_response)
    with ({[ B "Content-Type" := [B "text/plain"] ]} : Header).
  by rewrite map_to_list_singleton.
Defined.

Lemma Join_LF_lines (l : list bytes) :
  l ≠ [] → Join l [LF] ++ [LF] = concat ((λ x, x ++ [LF]) <$> l).
Proof.
  induction l as [|e l IH]; [done|]. intros _.
  destruct l as [|e' l].
  - simpl. by rewrite app_nil_r.
  - change (Join (e :: e' :: l) [LF]) with (e ++ [LF] ++ Join (e' :: l) [LF]).
    rewrite fmap_cons. change (concat (?x :: ?y)) with (x ++ concat y).
    rewrite <- IH by done. by rewrite <- !app_assoc.
Qed.

Lemma flat_map_Permutation {A C : Type} (f : A → list C) (l1 l2 : list A) :
  l1 ≡ₚ l2 → flat_map f l1 ≡ₚ flat_map f l2.
Proof.
  induction 1 as [|x l1 l2 _ IH|x y l|l1 l2 l3 _ IH1 _ IH2]; simpl.
  - done.
  - by rewrite IH.
  - rewrite !app_assoc. by rewrite (comm (++) (f y)).
  - by etrans.
Qed.

Lemma header_lines_stored (h : Header) (ks : list bytes) :
  range_order h ks → header_lines ks h ≡ₚ stored_lines h.
Proof.
  unfold range_order, header_lines, stored_lines. intros Hks.
  rewrite (flat_map_Permutation _ _ _ Hks).
  assert (Forall (λ kv, h !!! kv.1 = kv.2) (map_to_list h)) as Hall.
  { apply Forall_forall. intros [k vs] Hin. apply elem_of_map_to_list in Hin.
    simpl. by apply lookup_total_correct. }
  clear Hks. induction Hall as [|[k vs] l Hkv _ IH]; simpl; [done|].
  simpl in Hkv, IH. by rewrite Hkv, IH.
Qed.

(** C7: the rendering is the status line, then one line for every value
    that the header map holds (each stored value once, none merged or
    dropped, those of a [Content-Length] that the handler set included),
    then the line [Content-Length:] with the number of bytes of the body,
    then an empty line and the body. *)
Theorem respond_appends_content_length (ks : list bytes) (r : Response) :
  range_order (header_map r) ks →
  respond ks r
  = statusLine r ++ [LF]
    ++ concat ((λ l, l ++ [LF]) <$> header_lines ks (header_map r))
    ++ (B "Content-Length: " ++ Sprint_int (Z.of_nat (length (data r)))) ++ [LF]
    ++ [LF] ++ data r
  ∧ header_lines ks (header_map r) ≡ₚ stored_lines (header_map r).
Proof.
  intros Hks. split; [|by apply header_lines_stored].
  unfold respond.
  rewrite <- !app_assoc. f_equal. f_equal.
  rewrite (app_assoc (Join _ _) [LF]).
  rewrite Join_LF_lines by (by destruct (header_lines ks (header_map r))).
  rewrite fmap_app, concat_app. unfold contentLengthLine. simpl concat.
  rewrite app_nil_r. rewrite <- !app_assoc. f_equal. simpl.
  by rewrite <- !app_assoc.
Qed.

Lemma respond_appends_content_length_witness :
  respond [B "Content-Length"]
    {| status := 200; header := Some {[ B "Content-Length" := [B "99"; B "7"] ]};
       data := B "hi" |}
  = B "HTTP/1.1 200 OK" ++ [LF] ++ B "Content-Length: 99" ++ [LF]
    ++ B "Content-Length: 7" ++ [LF] ++ B "Content-Length: 2" ++ [LF] ++ [LF] ++ B "hi".
Proof.
  assert (range_order
            (header_map {| status := 200;
                           header := Some {[ B "Content-Length" := [B "99"; B "7"] ]};
                           data := B "hi" |})
            [B "Content-Length"]) as Hks.
  { unfold range_order.
    change (header_map _) with ({[ B "Content-Length" := [B "99"; B "7"] ]} : Header).
    by rewrite map_to_list_singleton. }
  etrans; [apply (proj1 (respond_appends_content_length _ _ Hks))|].
  by vm_compute.
Defined.

(** C10: a response whose status was never set is rendered all the same:
    the fresh response gives the status line [HTTP/1.1 0 OK] and a content
    length of 0, and any response with status 0 is rendered with that status
    line. *)
Theorem respond_unset_status (ks : list bytes) :
  (range_order (header_map Response_zero) ks →
   respond ks Response_zero
   = B "HTTP/1.1 0 OK" ++ [LF] ++ B "Content-Length: 0" ++ [LF] ++ [LF])
  ∧ (∀ r, status r = 0 →
          ∃ rest, respond ks r = B "HTTP/1.1 0 OK" ++ [LF] ++ rest).
Proof.
  split.
  - unfold range_order. change (header_map Response_zero) with (∅ : Header).
    rewrite map_to_list_empty. intros ->%Permutation_nil_r. by vm_compute.
  - intros r Hr. unfold respond, statusLine. rewrite Hr.
    eexists. rewrite <- !app_assoc. reflexivity.
Qed.

Lemma respond_unset_status_witness :
  respond [] Response_zero
  = B "HTTP/1.1 0 OK" ++ [LF] ++ B "Content-Length: 0" ++ [LF] ++ [LF].
Proof.
  apply (proj1 (respond_unset_status [])). unfold range_order.
  change (header_map Response_zero) with (∅ : Header).
  by rewrite map_to_list_empty.
Defined.

(** ** Closing the body *)



(** C1: on the line [GET /index.html HTTP/1.0] the method and the target are
    the first two tokens, and the protocol that is returned still ends with
    the line feed of the line. *)
Theorem parseRequestLine_keeps_terminator :
  parseRequestLine (NewReader [B "GET /index.html HTTP/1.0" ++ [LF]])
  = Some (B "GET", B "/index.html", B "HTTP/1.0" ++ [LF], None, {| buf := []; rd := [] |}).
Proof. by vm_compute. Qed.

(** * Further properties of the parser and the serializer *)

(** ** More on trimming *)

Section trimming_more.
Variable sp : ascii → bool.










End trimming_more.

























(** ** Numerals and the content length *)

Lemma decimal_from_string_of_uint (d : Decimal.uint) (acc : Z) :
  decimal_from (B (NilEmpty.string_of_uint d)) acc
  = Z.of_N (Unsigned.of_lu (Decimal.rev d)) + acc * 10 ^ Z.of_N (Unsigned.usize d).
Proof.
  revert acc.
  induction d as [|d IH|d IH|d IH|d IH|d IH|d IH|d IH|d IH|d IH|d IH]; intros acc;
    [simpl; lia|..];
    change (decimal_from (B (NilEmpty.string_of_uint (?D d))) acc)
      with (decimal_from (B (NilEmpty.string_of_uint d))
              (10 * acc + (byte_value
                 match NilEmpty.string_of_uint (D d) with
                 | String c _ => c | EmptyString => "0"%char end - 48)));
    rewrite IH; unfold Decimal.rev at 2; simpl Decimal.revapp;
    rewrite Unsigned.of_lu_revapp; simpl Unsigned.usize;
    rewrite N2Z.inj_add, N2Z.inj_mul, N2Z.inj_pow, N2Z.inj_succ, Z.pow_succ_r
      by apply N2Z.is_nonneg;
    simpl Unsigned.of_lu; simpl Z.of_N;
    match goal with |- context [byte_value ?c] =>
      let v := eval vm_compute in (byte_value c) in change (byte_value c) with v
    end; ring.
Qed.

Lemma string_of_uint_digits (d : Decimal.uint) :
  forallb isDigit (B (NilEmpty.string_of_uint d)) = true.
Proof. induction d; simpl; [done|..]; done. Qed.

(** The numeral of a number that is not negative: digits only, at
    least one, and with the number as value. *)
Lemma Sprint_int_decimal (n : Z) :
  0 ≤ n →
  Sprint_int n ≠ [] ∧ forallb isDigit (Sprint_int n) = true
  ∧ decimal_from (Sprint_int n) 0 = n.
Proof.
  intros Hn. unfold Sprint_int.
  assert (∃ d, Z.to_int n = Decimal.Pos d ∧ d ≠ Decimal.Nil) as (d & Hd & Hnil).
  { destruct n as [|p|p]; [by eexists|eexists; split; [done|]|lia].
    apply Unsigned.to_uint_nonnil. }
  pose proof (DecimalZ.of_to n) as Hof. rewrite Hd in *. simpl in Hof.
  unfold NilZero.string_of_int, NilZero.string_of_uint.
  assert (match d with Decimal.Nil => "0"%string | _ => NilEmpty.string_of_uint d end
          = NilEmpty.string_of_uint d) as -> by (by destruct d).
  split; [by destruct d|]. split; [apply string_of_uint_digits|].
  rewrite decimal_from_string_of_uint. rewrite <- Unsigned.of_uint_alt.
  unfold Z.of_uint in Hof. lia.
Qed.

Lemma digits_not_space (sp : ascii → bool) (s : bytes) :
  (∀ c, isDigit c = true → sp c = false) →
  forallb isDigit s = true →
  trimRight sp (trimLeft sp s) = s.
Proof.
  intros Hsp Hd.
  assert (trimLeft sp s = s) as ->.
  { destruct s as [|c s]; [done|]. simpl in Hd. apply andb_true_iff in Hd as [Hc _].
    by apply trimLeft_cons, Hsp. }
  destruct s as [|c s] using rev_ind; [done|].
  rewrite forallb_app in Hd. apply andb_true_iff in Hd as [_ Hc]. simpl in Hc.
  apply andb_true_iff in Hc as [Hc _]. by apply trimRight_snoc, Hsp.
Qed.

Lemma isDigit_not_space (c : ascii) :
  isDigit c = true → asciiSpace c = false ∧ isASCIISpace c = false
                     ∧ c ≠ LF ∧ c ≠ COLON ∧ c ≠ SP.
Proof.
  unfold isDigit. intros [H1%Z.leb_le H2%Z.leb_le]%andb_true_iff.
  assert (∀ x, byte_value x < 48 ∨ 57 < byte_value x → c ≠ x) as Hne.
  { intros x Hx ->. lia. }
  assert (c ≠ HT ∧ c ≠ LF ∧ c ≠ VT ∧ c ≠ FF ∧ c ≠ CR ∧ c ≠ SP ∧ c ≠ COLON)
    as (? & ? & ? & ? & ? & ? & ?).
  { split_and!; apply Hne; vm_compute; auto. }
  unfold asciiSpace, isASCIISpace.
  rewrite !bool_decide_eq_false_2 by done. done.
Qed.

(** X6: the content length that [parseContentLength] returns without an
    error is -1, exactly when the field is empty once trimmed, or a number
    from 0 to 2^63 - 1; with an error the number is 0 and the error carries
    the trimmed field. *)
Theorem parseContentLength_range (h : Header) :
  (TrimString (contentLengthField h) = [] ∧ parseContentLength h = (-1, None))
  ∨ (TrimString (contentLengthField h) ≠ []
     ∧ ((∃ n, 0 ≤ n < 2 ^ 63 ∧ parseContentLength h = (n, None))
        ∨ parseContentLength h
          = (0, Some (ErrBadContentLength (TrimString (contentLengthField h)))))).
Proof.
  unfold parseContentLength.
  destruct (decide (TrimString (contentLengthField h) = [])) as [He|Hne]; [by left|].
  right. split; [done|].
  pose proof (ParseUint_decimal _ Hne) as Hp.
  destruct (decimal_int64 (TrimString (contentLengthField h))) as [n|].
  - destruct Hp as [-> Hn]. left. exists n. split; [done|].
    unfold int64_of_uint64. destruct (Z.ltb_spec n (2 ^ 63)); [done|lia].
  - destruct Hp as (v & e & ->). by right.
Qed.

(** X7: for a header map that holds the values of the lines [hdrs] name by
    name, as [parseMIMEHeader] builds it, the content length is read from
    the first line named exactly [Content-Length]; when there is none or its
    value is empty, from the first line named [content-length]; later lines
    of either name and names in any other casing are not looked at. *)
Theorem contentLengthField_first_wins (h : Header) (hdrs : list (bytes * bytes)) :
  (∀ k, h !! k = if decide (values_of k hdrs = []) then None
                 else Some (values_of k hdrs)) →
  contentLengthField h =
  let first k := match values_of k hdrs with v :: _ => v | [] => [] end in
  if decide (first (B "Content-Length") = []) then first (B "content-length")
  else first (B "Content-Length").
Proof.
  intros Hh.
  assert (∀ k, h !!! k = values_of k hdrs) as Htot.
  { intros k. rewrite lookup_total_alt, Hh. case_decide as E; [by rewrite E|done]. }
  unfold contentLengthField, Header_Get. rewrite !Htot. cbv zeta.
  generalize (values_of (B "Content-Length") hdrs) as l1.
  generalize (values_of (B "content-length") hdrs) as l2.
  intros l2 [|[|c v] vs]; destruct l2; repeat case_decide; done.
Qed.

(** X9: the decimal numeral that [respond] writes for a length is read back
    by [parseContentLength] as that length, for every length below 2^63. *)
Theorem parseContentLength_Sprint_int (n : Z) :
  0 ≤ n < 2 ^ 63 →
  parseContentLength {[ B "Content-Length" := [Sprint_int n] ]} = (n, None).
Proof.
  intros Hn.
  destruct (Sprint_int_decimal n) as (Hne & Hd & Hv); [lia|].
  assert (contentLengthField {[ B "Content-Length" := [Sprint_int n] ]} = Sprint_int n) as Hf.
  { unfold contentLengthField, Header_Get. rewrite lookup_total_singleton_eq.
    rewrite decide_False; [done|]. by destruct (Sprint_int n). }
  assert (TrimString (Sprint_int n) = Sprint_int n) as Ht.
  { apply digits_not_space; [|done]. intros c Hc. by apply isDigit_not_space. }
  unfold parseContentLength. rewrite Hf, Ht. rewrite decide_False by done.
  pose proof (ParseUint_decimal _ Hne) as Hp. unfold decimal_int64 in Hp.
  rewrite bool_decide_eq_true_2, Hd, Hv in Hp by done. simpl in Hp.
  destruct (Z.ltb_spec n (2 ^ 63)); [|lia].
  destruct Hp as [-> _]. unfold int64_of_uint64.
  destruct (Z.ltb_spec n (2 ^ 63)); [done|lia].
Qed.

Section ReadAll_any.
Variable free : nat → nat.
Hypothesis free_pos : ∀ m, (0 < free m)%nat.

Lemma ReadAll_any (fuel : nat) (b : Body) (got : bytes) :
  (length (contents (R (body_reader b))) + length (rd (R (body_reader b))) < fuel)%nat →
  ∃ b',
    ReadAll free fuel b got
    = Some (got ++ take (Z.to_nat (N (body_reader b))) (contents (R (body_reader b))),
            None, b')
    ∧ contents (R (body_reader b'))
      = drop (Z.to_nat (N (body_reader b))) (contents (R (body_reader b)))
    ∧ body_closer b' = body_closer b.
Proof.
  revert b got. induction fuel as [|fuel IH]; intros [[r n] c] got Hfuel; [lia|].
  simpl in *. unfold Body_Read, LimitedReader_Read. simpl.
  destruct (Z.leb_spec n 0) as [Hz|Hpos].
  - replace (Z.to_nat n) with 0%nat by lia. rewrite take_0, drop_0. simpl.
    eexists. split; [reflexivity|]. done.
  - set (k := if n <? Z.of_nat (free (length got)) then Z.to_nat n else free (length got)).
    assert (0 < k ∧ k ≤ Z.to_nat n)%nat as [Hk Hkn].
    { unfold k. pose proof (free_pos (length got)). case_match; lia. }
    clearbody k.
    destruct (Reader_Read k r) as [[p err] r'] eqn:Hread.
    apply Reader_Read_spec in Hread as (Hc & Hlen & Hle & Herr); [|done].
    destruct Herr as [[-> Hprog]|(-> & -> & -> & Hnil)].
    + destruct (IH {| body_reader := {| R := r'; N := n - Z.of_nat (length p) |};
                      body_closer := c |} (got ++ p))
        as (b' & Hb' & Hcb' & Hcl).
      { simpl. rewrite Hc, length_app in Hfuel.
        destruct p; simpl in *; [specialize (Hprog eq_refl)|]; lia. }
      simpl in *. exists b'. rewrite Hb'. split; [|split; [|done]].
      * do 3 f_equal. rewrite <- app_assoc. f_equal. rewrite Hc.
        rewrite take_app. rewrite (take_ge p) by lia. do 2 f_equal. lia.
      * rewrite Hcb', Hc. rewrite drop_app. rewrite (drop_ge p) by lia. simpl.
        f_equal. lia.
    + simpl. rewrite Hnil, take_nil, drop_nil.
      eexists. split; [reflexivity|]. done.
Qed.
End ReadAll_any.

(** X8: reading the body to its end returns the first [n] bytes of the
    stream, or all of the stream when it holds fewer than [n] bytes, and
    nothing when [n] is negative; in each case without an error, so a body
    that is cut short is not told apart from a complete one. The bytes after
    the body stay on the stream. *)
Theorem ReadAll_takes_what_is_there
    (free : nat → nat) (fuel : nat) (r : Reader) (n : Z) (c : Closer) :
  (∀ m, (0 < free m)%nat) →
  (length (contents r) + length (rd r) < fuel)%nat →
  ∃ b',
    ReadAll free fuel {| body_reader := LimitReader r n; body_closer := c |} []
    = Some (take (Z.to_nat n) (contents r), None, b')
    ∧ contents (R (body_reader b')) = drop (Z.to_nat n) (contents r).
Proof.
  intros Hfree Hfuel.
  destruct (ReadAll_any free Hfree fuel
              {| body_reader := LimitReader r n; body_closer := c |} [])
    as (b' & Hb' & Hc & _); [done|].
  by exists b'.
Qed.

Lemma values_of_absent (k : bytes) (hdrs : list (bytes * bytes)) :
  Forall (λ nv, nv.1 ≠ k) hdrs → values_of k hdrs = [].
Proof.
  induction 1 as [|[n v] hdrs Hne _ IH]; [done|].
  rewrite values_of_cons. by rewrite decide_False.
Qed.

Lemma contentLengthField_first_wins_witness :
  contentLengthField (<[ B "Content-Length" := [B ""; B "5"] ]> {[ B "content-length" := [B "7"] ]})
  = B "7".
Proof.
  apply (contentLengthField_first_wins _
           [(B "Content-Length", B ""); (B "content-length", B "7");
            (B "Content-Length", B "5")]).
  intros k.
  destruct (decide (k = B "Content-Length")) as [->|H1]; [reflexivity|].
  destruct (decide (k = B "content-length")) as [->|H2]; [reflexivity|].
  rewrite lookup_insert_ne, lookup_singleton_ne by done.
  rewrite values_of_absent; [by rewrite decide_True|].
  repeat (apply List.Forall_cons;
          [intros E; simpl in E; subst; first [by apply H1|by apply H2]|]).
  apply List.Forall_nil.
Defined.

Lemma parseContentLength_Sprint_int_witness :
  parseContentLength {[ B "Content-Length" := [Sprint_int 11] ]} = (11, None).
Proof. apply parseContentLength_Sprint_int. lia. Defined.

Lemma ReadAll_takes_what_is_there_witness :
  ∃ b',
    ReadAll (λ _, 2%nat) 8
      (makeBodyReadCloser {| buf := B "hel"; rd := [B "lo"] |} 10) []
    = Some (B "hello", None, b')
    ∧ contents (R (body_reader b')) = [].
Proof.
  apply (ReadAll_takes_what_is_there (λ _, 2%nat) 8
           {| buf := B "hel"; rd := [B "lo"] |} 10 naiveCloser).
  - intros _. lia.
  - simpl. lia.
Defined.

(** ** Writing the response and reading it back *)

Lemma header_map_WriteHeader (r : Response) (field value : bytes) :
  header_map (WriteHeader r field value)
  = <[field := (header_map r !!! field) ++ [value]]> (header_map r).
Proof. unfold header_map, WriteHeader. simpl. by destruct (header r). Qed.

(** X11: after any sequence of [WriteHeader] calls the map holds under each
    name what it held before followed by the values written under that name,
    in the order of the calls; nothing is overwritten, and status and body
    are untouched. *)
Theorem WriteHeader_accumulates (r : Response) (kvs : list (bytes * bytes)) :
  status (WriteHeaders r kvs) = status r
  ∧ data (WriteHeaders r kvs) = data r
  ∧ ∀ k, header_map (WriteHeaders r kvs) !!! k = header_map r !!! k ++ values_of k kvs.
Proof.
  revert r. induction kvs as [|[k0 v0] kvs IH]; intros r.
  - split; [done|]. split; [done|]. intros k. unfold values_of. simpl.
    by rewrite app_nil_r.
  - change (WriteHeaders r ((k0, v0) :: kvs)) with (WriteHeaders (WriteHeader r k0 v0) kvs).
    destruct (IH (WriteHeader r k0 v0)) as (Hs & Hd & Hh).
    split; [by rewrite Hs|]. split; [by rewrite Hd|].
    intros k. rewrite Hh, header_map_WriteHeader, values_of_cons.
    destruct (decide (k0 = k)) as [->|Hne].
    + rewrite lookup_total_insert_eq. by rewrite <- app_assoc.
    + by rewrite lookup_total_insert_ne.
Qed.

Lemma stored_lines_insert (h : Header) (k v : bytes) :
  stored_lines (<[k := (h !!! k) ++ [v]]> h) ≡ₚ stored_lines h ++ [pair_line (k, v)].
Proof.
  unfold stored_lines.
  rewrite <- insert_delete_eq.
  rewrite (flat_map_Permutation _ _ _
             (map_to_list_insert (delete k h) k (h !!! k ++ [v]) (lookup_delete_eq h k))).
  simpl. rewrite fmap_app. simpl.
  destruct (h !! k) as [vs|] eqn:Hk.
  - rewrite <- (flat_map_Permutation _ _ _ (map_to_list_delete h k vs Hk)). simpl.
    rewrite (lookup_total_correct h k vs Hk).
    rewrite <- !app_assoc. apply Permutation_app_head. apply Permutation_app_comm.
  - rewrite lookup_total_alt, Hk. simpl. rewrite delete_id by done.
    apply Permutation_cons_append.
Qed.

(** X12: every [WriteHeader] call adds exactly one line to what [respond]
    renders: the header lines are, up to their order, the lines that were
    stored before and one line [name: value] for each call. *)
Theorem respond_one_line_per_WriteHeader
    (ks : list bytes) (r : Response) (kvs : list (bytes * bytes)) :
  range_order (header_map (WriteHeaders r kvs)) ks →
  header_lines ks (header_map (WriteHeaders r kvs))
  ≡ₚ stored_lines (header_map r) ++ (pair_line <$> kvs).
Proof.
  intros Hks. rewrite (header_lines_stored _ _ Hks). clear Hks.
  revert r. induction kvs as [|[k0 v0] kvs IH]; intros r.
  - simpl. by rewrite app_nil_r.
  - change (WriteHeaders r ((k0, v0) :: kvs)) with (WriteHeaders (WriteHeader r k0 v0) kvs).
    rewrite IH, header_map_WriteHeader, stored_lines_insert.
    by rewrite <- app_assoc.
Qed.

(** X13: after any sequence of [WriteData] calls the body is what it was
    followed by the written pieces in the order of the calls, status and
    headers are untouched, and the content length that [respond] writes is
    the total number of bytes. *)
Theorem WriteData_accumulates (r : Response) (ds : list bytes) :
  data (foldl WriteData r ds) = data r ++ concat ds
  ∧ status (foldl WriteData r ds) = status r
  ∧ header (foldl WriteData r ds) = header r
  ∧ contentLengthLine (foldl WriteData r ds)
    = B "Content-Length: "
      ++ Sprint_int (Z.of_nat (length (data r) + length (concat ds))).
Proof.
  assert (data (foldl WriteData r ds) = data r ++ concat ds
          ∧ status (foldl WriteData r ds) = status r
          ∧ header (foldl WriteData r ds) = header r) as (Hd & Hs & Hh).
  { revert r. induction ds as [|d ds IH]; intros r; simpl.
    - by rewrite app_nil_r.
    - destruct (IH (WriteData r d)) as (-> & -> & ->). simpl.
      by rewrite <- app_assoc. }
  split; [done|]. split; [done|]. split; [done|].
  unfold contentLengthLine. by rewrite Hd, length_app.
Qed.

(** X14: closing a body a second time changes nothing and returns what the
    first close returned, for both closers. *)
Theorem Body_Close_twice (b : Body) :
  Body_Close (Body_Close b).2 = Body_Close b.
Proof.
  destruct b as [[r n] []]; unfold Body_Close; simpl; [|done].
  unfold naiveCloser_Close, Copy_Discard.
  destruct (decide (0 < Buffered r)%nat) as [H|H]; simpl.
  - done.
  - by rewrite decide_False.
Qed.











Lemma respond_one_line_per_WriteHeader_witness :
  header_lines [B "A"; B "a"]
    (header_map (WriteHeaders Response_zero [(B "A", B "1"); (B "a", B "2"); (B "A", B "3")]))
  ≡ₚ stored_lines (header_map Response_zero)
     ++ (pair_line <$> [(B "A", B "1"); (B "a", B "2"); (B "A", B "3")]).
Proof.
  apply respond_one_line_per_WriteHeader. unfold range_order.
  assert (header_map (WriteHeaders Response_zero [(B "A", B "1"); (B "a", B "2"); (B "A", B "3")])
          = <[ B "A" := [B "1"; B "3"] ]> {[ B "a" := [B "2"] ]}) as -> by (by vm_compute).
  rewrite map_to_list_insert by compute_done.
  by rewrite map_to_list_singleton.
Defined.


(** ** The connection handler *)









(** ** A whole request *)



